(** * The todo application's state container (src/App.tsx) and its forms

    A shallow embedding of the state held by the [App] component, of the
    handlers it passes to its children, and of the child components that
    decide when those handlers run ([TodoForm], [TodoItem], [TodoList],
    [EditTodoForm]).  React state is modelled by explicit state passing:
    a handler is a function from the state of the current render to the
    state of the next one. *)

From Stdlib Require Import ZArith NArith Ascii String.
From stdpp Require Import base tactics option numbers relations sorting list.

Local Open Scope Z_scope.

(** ** JavaScript strings

    A JavaScript string is a sequence of UTF-16 code units.  [length] is
    the [.length] of the string, and the [maxLength] attribute of an input
    element counts the same units. *)

Abbreviation jsstring := (list N).

(** A string literal restricted to code units below 256. *)
Definition js (s : string) : jsstring :=
  N_of_ascii <$> list_ascii_of_string s.

(** The code units [String.prototype.trim] strips: ECMAScript's WhiteSpace
    (TAB, VT, FF, ZWNBSP and the space separators) and LineTerminator
    (LF, CR, LS, PS).  All of them lie in the basic plane, so the test is
    exact on code units. *)
Definition isWhiteSpace (c : N) : bool :=
  ((c =? 0x0009) || (c =? 0x000A) || (c =? 0x000B) || (c =? 0x000C) ||
   (c =? 0x000D) || (c =? 0x0020) || (c =? 0x00A0) || (c =? 0x1680) ||
   ((0x2000 <=? c) && (c <=? 0x200A)) ||
   (c =? 0x2028) || (c =? 0x2029) || (c =? 0x202F) || (c =? 0x205F) ||
   (c =? 0x3000) || (c =? 0xFEFF))%N.

Fixpoint trimStart (s : jsstring) : jsstring :=
  match s with
  | [] => []
  | c :: r => if isWhiteSpace c then trimStart r else s
  end.

Definition trimEnd (s : jsstring) : jsstring :=
  reverse (trimStart (reverse s)).

(** [s.trim()] *)
Definition trim (s : jsstring) : jsstring := trimEnd (trimStart s).

(** A string used as a condition: only the empty string is falsy. *)
Definition truthy (s : jsstring) : bool :=
  match s with [] => false | _ :: _ => true end.

(** ** The data model (src/types/Todo.ts)

    [id] is the value of [Date.now()], a whole number of milliseconds, and
    [createdAt] the time value of a [Date]; both are integers. *)

Record Todo := mkTodo {
  id : Z;
  text : jsstring;
  completed : bool;
  createdAt : Z
}.

#[global] Instance Todo_eq_dec : EqDecision Todo.
Proof. solve_decision. Defined.

(** ** The state of [App]: three [useState] cells *)

Record AppState := mkAppState {
  todos : list Todo;
  editingId : option Z;
  editText : jsstring
}.

#[global] Instance AppState_eq_dec : EqDecision AppState.
Proof. solve_decision. Defined.

(** [useState<Todo[]>([])], [useState<number | null>(null)],
    [useState<string>('')] *)
Definition initial : AppState :=
  {| todos := []; editingId := None; editText := [] |}.

(** [setTodos] is always called with an updater function. *)
Definition setTodos (f : list Todo → list Todo) (st : AppState) : AppState :=
  {| todos := f (todos st); editingId := editingId st; editText := editText st |}.

Definition setEditingId (v : option Z) (st : AppState) : AppState :=
  {| todos := todos st; editingId := v; editText := editText st |}.

Definition setEditText (v : jsstring) (st : AppState) : AppState :=
  {| todos := todos st; editingId := editingId st; editText := v |}.

(** ** The handlers of [App]

    [addTodo] reads the clock twice: [now] is what [Date.now()] returns and
    [created] the time of [new Date()]. *)

Definition addTodo (now created : Z) (txt : jsstring) (st : AppState) : AppState :=
  let newTodo :=
    {| id := now; text := trim txt; completed := false; createdAt := created |} in
  setTodos (λ prevTodos, prevTodos ++ [newTodo]) st.

Definition toggleTodo (i : Z) (st : AppState) : AppState :=
  setTodos (λ prevTodos,
    (λ todo,
       if decide (id todo = i)
       then {| id := id todo; text := text todo;
               completed := negb (completed todo); createdAt := createdAt todo |}
       else todo) <$> prevTodos) st.

Definition deleteTodo (i : Z) (st : AppState) : AppState :=
  setTodos (λ prevTodos, filter (λ todo, id todo ≠ i) prevTodos) st.

Definition startEditing (i : Z) (currentText : jsstring) (st : AppState) : AppState :=
  setEditText currentText (setEditingId (Some i) st).

Definition cancelEdit (st : AppState) : AppState :=
  setEditText [] (setEditingId None st).

(** [saveEdit] closes over [editingId] and [editText] of the render it was
    created in, which [useCallback]'s dependency list keeps current. *)
Definition saveEdit (st : AppState) : AppState :=
  match editingId st with
  | Some eid =>
      if truthy (trim (editText st)) then
        cancelEdit
          (setTodos (λ prevTodos,
             (λ todo,
                if decide (id todo = eid)
                then {| id := id todo; text := trim (editText st);
                        completed := completed todo; createdAt := createdAt todo |}
                else todo) <$> prevTodos) st)
      else st
  | None => st
  end.

(** ** The child components

    The handlers of [App] reach the user only through the components [App]
    renders; each component decides with which arguments, and whether, a
    handler runs. *)

(** [TodoForm]: the form that adds a todo.  It owns the [input] cell. *)
Module TodoForm.

Record State := mkState { input : jsstring }.

Definition init : State := {| input := [] |}.

(** [maxLength={200}] on the input element: the browser keeps what the
    user types within that many code units. *)
Definition maxLength : nat := 200.

Definition handleInputChange (value : jsstring) (f : State) : State :=
  {| input := value |}.

Definition handleSubmit (onAddTodo : jsstring → AppState → AppState)
    (f : State) (st : AppState) : State * AppState :=
  let trimmedInput := trim (input f) in
  if truthy trimmedInput
  then ({| input := [] |}, onAddTodo trimmedInput st)
  else (f, st).

(** [disabled={!input.trim()}] on the Add button. *)
Definition disabled (f : State) : bool := negb (truthy (trim (input f))).

End TodoForm.

(** [TodoItem]: one row of the list, with its three buttons. *)
Module TodoItem.

Definition handleToggle (todo : Todo) (onToggle : Z → AppState → AppState)
  : AppState → AppState := onToggle (id todo).

Definition handleEditClick (todo : Todo)
    (onEditStart : Z → jsstring → AppState → AppState)
  : AppState → AppState := onEditStart (id todo) (text todo).

Definition handleDeleteClick (todo : Todo) (onDelete : Z → AppState → AppState)
  : AppState → AppState := onDelete (id todo).

End TodoItem.

(** [EditTodoForm]: the form shown while a todo is edited. *)
Module EditTodoForm.

Definition handleSubmit (onSave : AppState → AppState) : AppState → AppState :=
  onSave.

Definition handleKeyDown (key : string) (onCancel : AppState → AppState)
    (st : AppState) : AppState :=
  if String.eqb key "Escape" then onCancel st else st.

(** [disabled={!editText.trim()}] on the Save button. *)
Definition disabled (editText : jsstring) : bool := negb (truthy (trim editText)).

End EditTodoForm.

(** ** What [App] renders

    [TodoForm] is always rendered.  Below it [App] renders [EditTodoForm]
    when [editingId !== null] and the [TodoList] otherwise, and [TodoList]
    renders one [TodoItem] per element of [todos].  A step of the interface
    is one event delivered to a rendered component. *)

Record UI := mkUI {
  app : AppState;
  form : TodoForm.State
}.

Definition ui_initial : UI := {| app := initial; form := TodoForm.init |}.

Definition with_app (g : AppState → AppState) (u : UI) : UI :=
  {| app := g (app u); form := form u |}.

Definition submit (now created : Z) (u : UI) : UI :=
  let '(f, st) := TodoForm.handleSubmit (addTodo now created) (form u) (app u) in
  {| app := st; form := f |}.

Inductive ui_step : UI → UI → Prop :=
  | ui_type value u :
      (length value ≤ TodoForm.maxLength)%nat →
      ui_step u {| app := app u;
                   form := TodoForm.handleInputChange value (form u) |}
  | ui_submit now created u :
      ui_step u (submit now created u)
  | ui_toggle todo u :
      editingId (app u) = None → todo ∈ todos (app u) →
      ui_step u (with_app (TodoItem.handleToggle todo toggleTodo) u)
  | ui_delete todo u :
      editingId (app u) = None → todo ∈ todos (app u) →
      ui_step u (with_app (TodoItem.handleDeleteClick todo deleteTodo) u)
  | ui_edit_start todo u :
      editingId (app u) = None → todo ∈ todos (app u) →
      ui_step u (with_app (TodoItem.handleEditClick todo startEditing) u)
  | ui_edit_change value u :
      is_Some (editingId (app u)) →
      ui_step u (with_app (setEditText value) u)
  | ui_edit_submit u :
      is_Some (editingId (app u)) →
      ui_step u (with_app (EditTodoForm.handleSubmit saveEdit) u)
  | ui_edit_key key u :
      is_Some (editingId (app u)) →
      ui_step u (with_app (EditTodoForm.handleKeyDown key cancelEdit) u)
  | ui_edit_cancel u :
      is_Some (editingId (app u)) →
      ui_step u (with_app cancelEdit u).

Definition ui_reachable (u : UI) : Prop := rtc ui_step ui_initial u.

(** ** The handlers called directly

    Nothing in [App] itself restricts the arguments its handlers are called
    with.  A [Call] names one handler with its arguments ([setEditText] is
    the [onChange] prop of the edit form), and a run is a sequence of
    calls. *)

Inductive Call :=
  | CallAdd (now created : Z) (txt : jsstring)
  | CallToggle (i : Z)
  | CallDelete (i : Z)
  | CallStartEditing (i : Z) (currentText : jsstring)
  | CallSetEditText (value : jsstring)
  | CallSaveEdit
  | CallCancelEdit.

Definition call (c : Call) : AppState → AppState :=
  match c with
  | CallAdd now created txt => addTodo now created txt
  | CallToggle i => toggleTodo i
  | CallDelete i => deleteTodo i
  | CallStartEditing i currentText => startEditing i currentText
  | CallSetEditText value => setEditText value
  | CallSaveEdit => saveEdit
  | CallCancelEdit => cancelEdit
  end.

Fixpoint run (cs : list Call) (st : AppState) : AppState :=
  match cs with
  | [] => st
  | c :: cs' => run cs' (call c st)
  end.

Definition reachable (st : AppState) : Prop := ∃ cs, st = run cs initial.

(** The values [Date.now()] returned at the adds of a run, in order. *)
Fixpoint clock_reads (cs : list Call) : list Z :=
  match cs with
  | [] => []
  | CallAdd now _ _ :: cs' => now :: clock_reads cs'
  | _ :: cs' => clock_reads cs'
  end.

(** ** Predicates on states *)

Definition ids (st : AppState) : list Z := id <$> todos st.

(** The text of a record is not empty and carries no outer white space. *)
Definition text_trimmed (todo : Todo) : Prop :=
  trim (text todo) ≠ [] ∧ trim (text todo) = text todo.

Definition text_within (n : nat) (todo : Todo) : Prop :=
  (length (text todo) ≤ n)%nat.

(** The record being edited is in the list. *)
Definition session_target_present (st : AppState) : Prop :=
  ∀ i, editingId st = Some i → i ∈ ids st.

(** When the rendered components make a call: [TodoForm] passes a trimmed,
    non-empty text; the buttons of a [TodoItem] exist only while the list
    is shown and pass the fields of a record of the list; the edit form
    exists only while a session is open. *)
Definition ui_enabled (c : Call) (st : AppState) : Prop :=
  match c with
  | CallAdd _ _ txt => trim txt ≠ [] ∧ trim txt = txt
  | CallToggle i | CallDelete i => editingId st = None ∧ i ∈ ids st
  | CallStartEditing i currentText =>
      editingId st = None ∧
      ∃ todo, todo ∈ todos st ∧ id todo = i ∧ text todo = currentText
  | CallSetEditText _ | CallSaveEdit | CallCancelEdit => is_Some (editingId st)
  end.

(** The listing of [TodoForm] in the README differs from the component:
    it keeps an [error] cell and shows a message when the input is blank. *)
Module ReadmeTodoForm.

Record State := mkState { input : jsstring; error : option string }.

Definition handleSubmit (onAddTodo : jsstring → AppState → AppState)
    (f : State) (st : AppState) : State * AppState :=
  let trimmedInput := trim (input f) in
  if negb (truthy trimmedInput)
  then ({| input := input f; error := Some "Todo cannot be empty."%string |}, st)
  else ({| input := []; error := None |}, onAddTodo trimmedInput st).

End ReadmeTodoForm.

(** What [saveEdit] maps over the list when it saves. *)
Definition retexted (i : Z) (s : jsstring) (todo : Todo) : Todo :=
  if decide (id todo = i)
  then {| id := id todo; text := s;
          completed := completed todo; createdAt := createdAt todo |}
  else todo.

(** What [toggleTodo] maps over the list. *)
Definition toggled (i : Z) (todo : Todo) : Todo :=
  if decide (id todo = i)
  then {| id := id todo; text := text todo;
          completed := negb (completed todo); createdAt := createdAt todo |}
  else todo.

(** ** The figures in the footer of [App]

    [todos.length], [todos.filter((todo) => todo.completed).length] and
    their difference, which is a subtraction of numbers. *)

Definition totalTodos (st : AppState) : Z := Z.of_nat (length (todos st)).

Definition completedTodos (st : AppState) : Z :=
  Z.of_nat (length (filter (λ todo, completed todo) (todos st))).

Definition remainingTodos (st : AppState) : Z := totalTodos st - completedTodos st.

(** ** The earlier [App]

    The second [App] of src/App.tsx has the list as its only state, stores
    the text it is given as it is, and passes [setTodos] the new list
    built from the [todos] of the current render. *)
Module AppV1.

Definition addTodo (now created : Z) (txt : jsstring) (todos : list Todo) : list Todo :=
  let newTodo :=
    {| id := now; text := txt; completed := false; createdAt := created |} in
  todos ++ [newTodo].

Definition toggleTodo (i : Z) (todos : list Todo) : list Todo :=
  (λ todo,
     if decide (id todo = i)
     then {| id := id todo; text := text todo;
             completed := negb (completed todo); createdAt := createdAt todo |}
     else todo) <$> todos.

Definition deleteTodo (i : Z) (todos : list Todo) : list Todo :=
  filter (λ todo, id todo ≠ i) todos.

End AppV1.

(** The id and the creation time of each record, in list order. *)
Definition origins (st : AppState) : list (Z * Z) :=
  (λ todo, (id todo, createdAt todo)) <$> todos st.

(** * Properties *)

(** ** Trimming *)

Section Trim.

Implicit Types (s r : jsstring) (c : N).

Lemma truthy_cons s : truthy s = true ↔ s ≠ [].
Proof. destruct s; simpl; split; congruence. Qed.

(** What [trimStart] returns is empty or begins with a kept unit. *)
Lemma trimStart_head s :
  trimStart s = [] ∨ ∃ c r, trimStart s = c :: r ∧ isWhiteSpace c = false.
Proof.
  induction s as [|c r IH]; simpl; [by left|].
  destruct (isWhiteSpace c) eqn:Hc; [exact IH|].
  right. by exists c, r.
Qed.

Lemma trimStart_keep c r : isWhiteSpace c = false → trimStart (c :: r) = c :: r.
Proof. intros Hc. simpl. by rewrite Hc. Qed.

Lemma trimStart_snoc s c :
  isWhiteSpace c = false → trimStart (s ++ [c]) = trimStart s ++ [c].
Proof.
  intros Hc. induction s as [|d r IH]; simpl.
  - by rewrite Hc.
  - by destruct (isWhiteSpace d).
Qed.

Lemma trimStart_idemp s : trimStart (trimStart s) = trimStart s.
Proof.
  destruct (trimStart_head s) as [->|(c & r & -> & Hc)]; [done|].
  by apply trimStart_keep.
Qed.

Lemma trimEnd_keep c r : isWhiteSpace c = false → trimEnd (c :: r) = c :: trimEnd r.
Proof.
  intros Hc. unfold trimEnd.
  by rewrite reverse_cons, trimStart_snoc, reverse_snoc.
Qed.

Lemma trimEnd_idemp s : trimEnd (trimEnd s) = trimEnd s.
Proof. unfold trimEnd. by rewrite reverse_involutive, trimStart_idemp. Qed.

Lemma trim_idemp s : trim (trim s) = trim s.
Proof.
  unfold trim.
  destruct (trimStart_head s) as [->|(c & r & -> & Hc)]; [done|].
  rewrite (trimEnd_keep c r Hc), (trimStart_keep c _ Hc).
  rewrite <- (trimEnd_keep c r Hc). apply trimEnd_idemp.
Qed.

Lemma length_trimStart s : (length (trimStart s) ≤ length s)%nat.
Proof.
  induction s as [|c r IH]; simpl; [done|].
  destruct (isWhiteSpace c); simpl; lia.
Qed.

Lemma length_trim s : (length (trim s) ≤ length s)%nat.
Proof.
  unfold trim, trimEnd. rewrite length_reverse.
  etrans; [apply length_trimStart|].
  rewrite length_reverse. apply length_trimStart.
Qed.

(** A trimmed, non-empty draft is what the forms store. *)
Lemma trim_text_trimmed s now created done :
  trim s ≠ [] →
  text_trimmed {| id := now; text := trim s; completed := done; createdAt := created |}.
Proof. intros Hs. unfold text_trimmed; simpl. by rewrite trim_idemp. Qed.

End Trim.

(** ** Adding *)

(** C1, as stated, fails on [addTodo]: the handler has no guard, so a
    blank text is not rejected; a record with the empty text is appended. *)
Lemma addTodo_blank_is_stored :
  trim (js "   ") = [] ∧
  todos (addTodo 1000 1000 (js "   ") initial)
    = [ {| id := 1000; text := []; completed := false; createdAt := 1000 |} ] ∧
  addTodo 1000 1000 (js "   ") initial ≠ initial.
Proof. split; [reflexivity|]. split; [reflexivity|]. discriminate. Qed.

(** C1, amended: the guard against blank text is in [TodoForm], the only
    place [addTodo] is called from.  When the form's input trims to the
    empty string, submitting does not call [addTodo]: the records, the edit
    session and the input itself are as before, and nothing is reported.
    [addTodo] called with such a text stores the empty string. *)
Theorem blank_submit_is_ignored now created (f : TodoForm.State) (st : AppState) :
  trim (TodoForm.input f) = [] →
  TodoForm.handleSubmit (addTodo now created) f st = (f, st) ∧
  todos (addTodo now created (TodoForm.input f) st)
    = todos st ++ [ {| id := now; text := []; completed := false; createdAt := created |} ].
Proof.
  intros Hblank. split.
  - unfold TodoForm.handleSubmit. by rewrite Hblank.
  - unfold addTodo; simpl. by rewrite Hblank.
Qed.

Lemma blank_submit_is_ignored_witness :
  let f := {| TodoForm.input := js "   " |} in
  TodoForm.handleSubmit (addTodo 7 8) f initial = (f, initial) ∧
  todos (addTodo 7 8 (TodoForm.input f) initial)
    = [ {| id := 7; text := []; completed := false; createdAt := 8 |} ].
Proof.
  exact (blank_submit_is_ignored 7 8 {| TodoForm.input := js "   " |} initial eq_refl).
Defined.

(** The form of the README's listing does report a blank input, by
    setting its [error] cell; it leaves the application state alone too. *)
Lemma readme_blank_submit_reports onAddTodo (f : ReadmeTodoForm.State) st :
  trim (ReadmeTodoForm.input f) = [] →
  ReadmeTodoForm.handleSubmit onAddTodo f st
    = ({| ReadmeTodoForm.input := ReadmeTodoForm.input f;
          ReadmeTodoForm.error := Some "Todo cannot be empty."%string |}, st).
Proof. intros Hblank. unfold ReadmeTodoForm.handleSubmit. by rewrite Hblank. Qed.

(** What a submit with a non-blank input does to the application. *)
Lemma submit_adds now created (f : TodoForm.State) st :
  trim (TodoForm.input f) ≠ [] →
  TodoForm.handleSubmit (addTodo now created) f st
    = ({| TodoForm.input := [] |},
       setTodos (λ prevTodos, prevTodos ++
         [ {| id := now; text := trim (TodoForm.input f);
              completed := false; createdAt := created |} ]) st).
Proof.
  intros Hs. unfold TodoForm.handleSubmit.
  apply truthy_cons in Hs. rewrite Hs.
  unfold addTodo. by rewrite trim_idemp.
Qed.

(** A record made through the add form is within the form's bound. *)
Lemma submit_within_bound now created (f : TodoForm.State) st :
  (length (TodoForm.input f) ≤ TodoForm.maxLength)%nat →
  Forall (text_within TodoForm.maxLength) (todos st) →
  Forall (text_within TodoForm.maxLength)
         (todos (TodoForm.handleSubmit (addTodo now created) f st).2).
Proof.
  intros Hlen Hall.
  destruct (decide (trim (TodoForm.input f) = [])) as [Hs|Hs].
  - unfold TodoForm.handleSubmit. by rewrite Hs.
  - rewrite (submit_adds now created f st Hs); simpl.
    apply Forall_app_2; [done|]. apply Forall_singleton.
    unfold text_within; simpl. etrans; [apply length_trim|done].
Qed.

(** C5: for a text that is not blank, [addTodo] appends one record at the
    end, with the trimmed text, not completed, created at the time read;
    the length grows by one, and the records already there keep their
    places and values.  The edit session is not touched. *)
Theorem addTodo_appends_one now created (s : jsstring) (st : AppState) :
  trim s ≠ [] →
  todos (addTodo now created s st)
    = todos st ++ [ {| id := now; text := trim s;
                       completed := false; createdAt := created |} ] ∧
  length (todos (addTodo now created s st)) = S (length (todos st)) ∧
  (∀ k todo, todos st !! k = Some todo →
             todos (addTodo now created s st) !! k = Some todo) ∧
  todos (addTodo now created s st) !! length (todos st)
    = Some {| id := now; text := trim s; completed := false; createdAt := created |} ∧
  editingId (addTodo now created s st) = editingId st ∧
  editText (addTodo now created s st) = editText st.
Proof.
  intros _. unfold addTodo; simpl. repeat split.
  - rewrite length_app; simpl. lia.
  - intros k todo Hk. by apply lookup_app_l_Some.
  - by rewrite list_lookup_middle.
Qed.

Lemma addTodo_appends_one_witness :
  todos (addTodo 1000 1001 (js "  Buy milk ") initial)
    = [ {| id := 1000; text := js "Buy milk"; completed := false; createdAt := 1001 |} ].
Proof.
  assert (Hs : trim (js "  Buy milk ") ≠ []) by (vm_compute; discriminate).
  exact (proj1 (addTodo_appends_one 1000 1001 (js "  Buy milk ") initial Hs)).
Defined.

(** ** Toggling *)

Lemma toggleTodo_absent i st :
  (∀ todo, todo ∈ todos st → id todo ≠ i) → toggleTodo i st = st.
Proof.
  destruct st as [ts e d]; unfold toggleTodo, setTodos; simpl.
  intros Habs. f_equal.
  induction ts as [|t ts IH]; [done|].
  rewrite fmap_cons. rewrite IH.
  - rewrite decide_False; [done|]. apply Habs. left.
  - intros todo Hin. apply Habs. by right.
Qed.

Lemma ids_toggleTodo i st : ids (toggleTodo i st) = ids st.
Proof.
  unfold ids, toggleTodo; simpl.
  rewrite <- list_fmap_compose. apply list_fmap_ext.
  intros k todo _; simpl. by case_decide.
Qed.

(** C8: [toggleTodo] on an id that no record carries changes nothing.  On
    any id it keeps the session, the length and the order of the list;
    position by position, a record with another id is kept as it is and a
    record with that id keeps its id, text and creation time and has its
    [completed] flag negated. *)
Theorem toggleTodo_frame (i : Z) (st : AppState) :
  ((∀ todo, todo ∈ todos st → id todo ≠ i) → toggleTodo i st = st) ∧
  editingId (toggleTodo i st) = editingId st ∧
  editText (toggleTodo i st) = editText st ∧
  length (todos (toggleTodo i st)) = length (todos st) ∧
  ids (toggleTodo i st) = ids st ∧
  ∀ k todo, todos st !! k = Some todo →
    ∃ todo', todos (toggleTodo i st) !! k = Some todo' ∧
      id todo' = id todo ∧ text todo' = text todo ∧
      createdAt todo' = createdAt todo ∧
      (id todo = i → completed todo' = negb (completed todo)) ∧
      (id todo ≠ i → todo' = todo).
Proof.
  split; [apply toggleTodo_absent|].
  unfold ids, toggleTodo; simpl.
  split; [done|]. split; [done|].
  split; [by rewrite length_fmap|].
  split; [apply (ids_toggleTodo i st)|].
  intros k todo Hk. rewrite list_lookup_fmap, Hk; simpl.
  eexists; split; [reflexivity|].
  case_decide; simpl; repeat split; congruence.
Qed.

Lemma toggleTodo_frame_witness :
  let st := {| todos := [ {| id := 1; text := js "a"; completed := false; createdAt := 1 |};
                          {| id := 2; text := js "b"; completed := true; createdAt := 2 |} ];
               editingId := None; editText := [] |} in
  toggleTodo 3 st = st ∧
  todos (toggleTodo 2 st)
    = [ {| id := 1; text := js "a"; completed := false; createdAt := 1 |};
        {| id := 2; text := js "b"; completed := false; createdAt := 2 |} ].
Proof.
  intros st. split; [|reflexivity].
  apply (proj1 (toggleTodo_frame 3 st)).
  intros todo Hin. apply list_elem_of_In in Hin. simpl in Hin.
  destruct Hin as [<-|[<-|[]]]; simpl; lia.
Defined.

(** ** Editing *)

(** C10: [startEditing] checks nothing and cannot fail.  For every id and
    text, present in the list or not, the session afterwards holds exactly
    that id and that text, whatever session there was before, and the list
    of records is the same. *)
Theorem startEditing_sets_session (i : Z) (t : jsstring) (st : AppState) :
  editingId (startEditing i t st) = Some i ∧
  editText (startEditing i t st) = t ∧
  todos (startEditing i t st) = todos st ∧
  startEditing i t st = {| todos := todos st; editingId := Some i; editText := t |}.
Proof. by unfold startEditing. Qed.

(** C7: with a session open and a draft that trims to the empty string,
    [saveEdit] returns the state it was given: no record changes and the
    session stays open with the same id and draft. *)
Theorem saveEdit_blank_draft (st : AppState) :
  is_Some (editingId st) → trim (editText st) = [] → saveEdit st = st.
Proof.
  intros [i Hi] Hblank. unfold saveEdit. by rewrite Hi, Hblank.
Qed.

Lemma saveEdit_blank_draft_witness :
  let st := {| todos := [ {| id := 4; text := js "foo"; completed := false; createdAt := 4 |} ];
               editingId := Some 4; editText := js "   " |} in
  saveEdit st = st.
Proof.
  intros st. apply saveEdit_blank_draft.
  - by exists 4.
  - reflexivity.
Defined.

Lemma saveEdit_saves st i :
  editingId st = Some i → trim (editText st) ≠ [] →
  saveEdit st = {| todos := retexted i (trim (editText st)) <$> todos st;
                   editingId := None; editText := [] |}.
Proof.
  intros Hi Hs. unfold saveEdit. rewrite Hi.
  apply truthy_cons in Hs. by rewrite Hs.
Qed.

Lemma retexted_absent i s (ts : list Todo) :
  (∀ todo, todo ∈ ts → id todo ≠ i) → retexted i s <$> ts = ts.
Proof.
  induction ts as [|t ts IH]; intros Habs; [done|].
  rewrite fmap_cons, IH.
  - unfold retexted. rewrite decide_False; [done|]. apply Habs. left.
  - intros todo Hin. apply Habs. by right.
Qed.

(** C9: with a session open on an id that no record carries and a draft
    that is not blank, [saveEdit] keeps the list as it is and still closes
    the session: the id becomes absent and the draft empty, so the state
    does change. *)
Theorem saveEdit_without_target (st : AppState) (i : Z) :
  editingId st = Some i →
  (∀ todo, todo ∈ todos st → id todo ≠ i) →
  trim (editText st) ≠ [] →
  todos (saveEdit st) = todos st ∧
  editingId (saveEdit st) = None ∧
  editText (saveEdit st) = [] ∧
  saveEdit st ≠ st.
Proof.
  intros Hi Habs Hs. rewrite (saveEdit_saves st i Hi Hs); simpl.
  split; [by apply retexted_absent|]. split; [done|]. split; [done|].
  intros Heq. apply (f_equal editingId) in Heq. simpl in Heq. congruence.
Qed.

Lemma saveEdit_without_target_witness :
  let st := {| todos := []; editingId := Some 5; editText := js "x" |} in
  todos (saveEdit st) = [] ∧ editingId (saveEdit st) = None ∧
  editText (saveEdit st) = [] ∧ saveEdit st ≠ st.
Proof.
  intros st. apply (saveEdit_without_target st 5).
  - reflexivity.
  - intros todo Hin. by apply elem_of_nil in Hin.
  - vm_compute. discriminate.
Defined.

(** C6: with a session open on the id of a record in the list and a draft
    that is not blank, [saveEdit] closes the session and writes the trimmed
    draft as the text of the record with that id, keeping its other fields,
    the other records and the order.  In particular, after
    [startEditing i "foo"], [setEditText "bar"] and [saveEdit], the record
    with id [i] has the text "bar" and no session is open. *)
Theorem saveEdit_commits_draft (st : AppState) (i : Z) :
  (∃ todo, todo ∈ todos st ∧ id todo = i) →
  (editingId st = Some i → trim (editText st) ≠ [] →
     editingId (saveEdit st) = None ∧
     editText (saveEdit st) = [] ∧
     length (todos (saveEdit st)) = length (todos st) ∧
     (∀ k todo, todos st !! k = Some todo →
        todos (saveEdit st) !! k = Some (retexted i (trim (editText st)) todo)) ∧
     (∃ todo', todo' ∈ todos (saveEdit st) ∧ id todo' = i) ∧
     (∀ todo', todo' ∈ todos (saveEdit st) → id todo' = i →
        text todo' = trim (editText st))) ∧
  (let st' := saveEdit (setEditText (js "bar") (startEditing i (js "foo") st)) in
     editingId st' = None ∧
     editText st' = [] ∧
     todos st' = retexted i (js "bar") <$> todos st ∧
     (∃ todo', todo' ∈ todos st' ∧ id todo' = i) ∧
     (∀ todo', todo' ∈ todos st' → id todo' = i → text todo' = js "bar")).
Proof.
  intros (t & Hin & Hid).
  assert (Hmem : ∀ (s : jsstring) (ts : list Todo), t ∈ ts →
            (∃ todo', todo' ∈ retexted i s <$> ts ∧ id todo' = i) ∧
            (∀ todo', todo' ∈ retexted i s <$> ts → id todo' = i → text todo' = s)).
  { intros s ts Hts. split.
    - exists (retexted i s t). split; [by apply list_elem_of_fmap_2|].
      unfold retexted. by case_decide.
    - intros todo' Hin' Hid'.
      apply list_elem_of_fmap in Hin' as (todo & -> & _).
      revert Hid'. unfold retexted. case_decide; simpl; [done|congruence]. }
  split.
  - intros Hi Hs. rewrite (saveEdit_saves st i Hi Hs); simpl.
    split; [done|]. split; [done|]. split; [by rewrite length_fmap|].
    split; [|by apply Hmem].
    intros k todo Hk. by rewrite list_lookup_fmap, Hk.
  - intros st'. subst st'.
    rewrite (saveEdit_saves _ i); [|done|by vm_compute]. simpl.
    change (trim (js "bar")) with (js "bar").
    split; [done|]. split; [done|]. split; [done|]. by apply Hmem.
Qed.

Lemma saveEdit_commits_draft_witness :
  let st := {| todos := [ {| id := 4; text := js "foo"; completed := true; createdAt := 9 |};
                          {| id := 6; text := js "baz"; completed := false; createdAt := 10 |} ];
               editingId := Some 4; editText := js " bar " |} in
  todos (saveEdit st) !! 0%nat
    = Some {| id := 4; text := js "bar"; completed := true; createdAt := 9 |} ∧
  editingId (saveEdit st) = None.
Proof.
  intros st.
  assert (Hin : ∃ todo, todo ∈ todos st ∧ id todo = 4).
  { eexists. split; [left|reflexivity]. }
  assert (Hs : trim (editText st) ≠ []) by (vm_compute; discriminate).
  destruct (proj1 (saveEdit_commits_draft st 4 Hin) eq_refl Hs)
    as (Hid & _ & _ & Hk & _).
  split; [|exact Hid].
  exact (Hk 0%nat _ eq_refl).
Defined.

(** ** Deleting *)

Lemma ids_deleteTodo i st : ids (deleteTodo i st) = filter (λ j, j ≠ i) (ids st).
Proof.
  unfold ids, deleteTodo; simpl.
  induction (todos st) as [|t ts IH]; [done|].
  rewrite fmap_cons, !filter_cons. simpl.
  case_decide; [rewrite fmap_cons|]; by rewrite IH.
Qed.

(** ** How the handlers change the ids and the texts *)

Lemma ids_addTodo now created s st :
  ids (addTodo now created s st) = ids st ++ [now].
Proof. unfold ids, addTodo; simpl. by rewrite fmap_app. Qed.

Lemma ids_retexted i s (ts : list Todo) : id <$> (retexted i s <$> ts) = id <$> ts.
Proof.
  rewrite <- list_fmap_compose. apply list_fmap_ext.
  intros k todo _; simpl. unfold retexted. by case_decide.
Qed.

Lemma saveEdit_cases st :
  saveEdit st = st ∨
  ∃ i, editingId st = Some i ∧ trim (editText st) ≠ [] ∧
       saveEdit st = {| todos := retexted i (trim (editText st)) <$> todos st;
                        editingId := None; editText := [] |}.
Proof.
  destruct (editingId st) as [i|] eqn:Hi; [|left; unfold saveEdit; by rewrite Hi].
  destruct (decide (trim (editText st) = [])) as [Hs|Hs].
  - left. unfold saveEdit. by rewrite Hi, Hs.
  - right. exists i. split; [done|]. split; [done|]. by apply saveEdit_saves.
Qed.

Lemma ids_saveEdit st : ids (saveEdit st) = ids st.
Proof.
  destruct (saveEdit_cases st) as [->|(i & _ & _ & ->)]; [done|].
  apply ids_retexted.
Qed.

(** No call other than an add brings in an id: the ids afterwards are the
    ids before with some of them left out. *)
Lemma ids_call_sublist c st :
  (∀ now created txt, c ≠ CallAdd now created txt) →
  ids (call c st) `sublist_of` ids st.
Proof.
  intros Hc. destruct c; simpl; try done.
  - by destruct (Hc now created txt).
  - by rewrite ids_toggleTodo.
  - rewrite ids_deleteTodo. apply sublist_filter.
  - by rewrite ids_saveEdit.
Qed.

Lemma text_trimmed_retexted i s todo :
  trim s ≠ [] → text_trimmed todo → text_trimmed (retexted i (trim s) todo).
Proof.
  intros Hs Ht. unfold retexted. case_decide; [|done].
  by apply trim_text_trimmed.
Qed.

(** A call the interface can make keeps every text trimmed and not blank. *)
Lemma text_trimmed_call c st :
  ui_enabled c st →
  Forall text_trimmed (todos st) → Forall text_trimmed (todos (call c st)).
Proof.
  intros Hen Hinv. destruct c; simpl in *; try done.
  - destruct Hen as [Hne Htr]. apply Forall_app_2; [done|].
    apply Forall_singleton. by apply trim_text_trimmed.
  - apply Forall_fmap. eapply Forall_impl; [exact Hinv|].
    intros todo Ht; simpl. by case_decide.
  - apply Forall_forall. intros todo [_ Hin]%list_elem_of_filter.
    by eapply Forall_forall in Hinv.
  - destruct (saveEdit_cases st) as [->|(i & _ & Hs & ->)]; [done|]. simpl.
    apply Forall_fmap. eapply Forall_impl; [exact Hinv|].
    intros todo Ht; simpl. by apply text_trimmed_retexted.
Qed.

(** A call the interface can make keeps the session on a listed record. *)
Lemma session_target_call c st :
  ui_enabled c st →
  session_target_present st → session_target_present (call c st).
Proof.
  unfold session_target_present.
  intros Hen Hinv. destruct c; simpl in *.
  - intros i Hi. rewrite ids_addTodo. apply elem_of_app. left. by apply Hinv.
  - intros j Hj. rewrite ids_toggleTodo. by apply Hinv.
  - destruct Hen as [Hnone _]. intros j Hj. simpl in Hj. congruence.
  - destruct Hen as [_ (todo & Hin & Hid & _)].
    intros j Hj. simpl in Hj. injection Hj as <-.
    unfold ids; simpl. rewrite <- Hid. by apply list_elem_of_fmap_2.
  - done.
  - destruct (saveEdit_cases st) as [->|(i & _ & _ & ->)]; [done|].
    intros j Hj. simpl in Hj. congruence.
  - intros j Hj. simpl in Hj. congruence.
Qed.

(** ** The interface only makes enabled calls *)

Lemma ui_step_call u u' :
  ui_step u u' →
  app u' = app u ∨ ∃ c, ui_enabled c (app u) ∧ app u' = call c (app u).
Proof.
  intros Hstep. destruct Hstep as
    [value u Hlen | now created u | todo u Hnone Hin | todo u Hnone Hin
    | todo u Hnone Hin | value u Hsome | u Hsome | key u Hsome | u Hsome]; simpl.
  - by left.
  - unfold submit, TodoForm.handleSubmit.
    destruct (truthy (trim (TodoForm.input (form u)))) eqn:Ht; simpl; [|by left].
    right. exists (CallAdd now created (trim (TodoForm.input (form u)))).
    split; [|done]. simpl. rewrite trim_idemp.
    split; [exact (proj1 (truthy_cons _) Ht)|done].
  - right. exists (CallToggle (id todo)). split; [|done].
    split; [done|]. by apply list_elem_of_fmap_2.
  - right. exists (CallDelete (id todo)). split; [|done].
    split; [done|]. by apply list_elem_of_fmap_2.
  - right. exists (CallStartEditing (id todo) (text todo)). split; [|done].
    split; [done|]. by exists todo.
  - right. by exists (CallSetEditText value).
  - right. by exists CallSaveEdit.
  - unfold EditTodoForm.handleKeyDown.
    destruct (String.eqb key "Escape"); [|by left].
    right. by exists CallCancelEdit.
  - right. by exists CallCancelEdit.
Qed.

Lemma ui_invariant u :
  ui_reachable u →
  Forall text_trimmed (todos (app u)) ∧ session_target_present (app u).
Proof.
  unfold ui_reachable. revert u. apply rtc_ind_r.
  - split; [constructor|]. intros i Hi. discriminate.
  - intros u u' _ Hstep [Htexts Hsession].
    destruct (ui_step_call u u' Hstep) as [->|(c & Hen & ->)]; [done|].
    split; [by apply text_trimmed_call|by apply session_target_call].
Qed.

(** Every state the interface reaches is one the handlers reach. *)
Lemma run_snoc cs c st : run (cs ++ [c]) st = call c (run cs st).
Proof. revert st. induction cs as [|d cs IH]; intros st; simpl; [done|apply IH]. Qed.

Lemma ui_reachable_reachable u : ui_reachable u → reachable (app u).
Proof.
  unfold ui_reachable. revert u. apply rtc_ind_r.
  - by exists [].
  - intros u u' _ Hstep [cs Hcs].
    destruct (ui_step_call u u' Hstep) as [->|(c & _ & ->)]; [by exists cs|].
    exists (cs ++ [c]). by rewrite run_snoc, Hcs.
Qed.

(** A state of the interface used below: " x " typed and submitted at time
    5, then the Edit button of the new row pressed. *)
Lemma ui_editing_reachable :
  ui_reachable
    {| app := {| todos := [ {| id := 5; text := js "x";
                               completed := false; createdAt := 6 |} ];
                 editingId := Some 5; editText := js "x" |};
       form := {| TodoForm.input := [] |} |}.
Proof.
  unfold ui_reachable.
  eapply rtc_l; [apply (ui_type (js " x ")); vm_compute; lia|].
  eapply rtc_l; [apply (ui_submit 5 6)|].
  eapply rtc_l.
  { apply (ui_edit_start {| id := 5; text := js "x";
                            completed := false; createdAt := 6 |});
      [reflexivity|left]. }
  apply rtc_refl.
Qed.

(** ** The edit session and deletion *)

(** C2, as stated, fails: [deleteTodo] only filters the list.  Called
    while a session is open on the deleted id it leaves the session open,
    the state reached has a session whose id is on no record, and the
    [saveEdit] that follows is not a no-op, it closes the session. *)
Lemma deleteTodo_keeps_session :
  let st := run [CallAdd 5 5 (js "x"); CallStartEditing 5 (js "x")] initial in
  editingId st = Some 5 ∧
  todos (deleteTodo 5 st) = [] ∧
  editingId (deleteTodo 5 st) = Some 5 ∧
  editText (deleteTodo 5 st) = js "x" ∧
  reachable (deleteTodo 5 st) ∧
  ¬ session_target_present (deleteTodo 5 st) ∧
  saveEdit (deleteTodo 5 st) ≠ deleteTodo 5 st.
Proof.
  intros st. repeat split.
  - by exists [CallAdd 5 5 (js "x"); CallStartEditing 5 (js "x"); CallDelete 5].
  - intros Hinv. specialize (Hinv 5 eq_refl). by apply elem_of_nil in Hinv.
  - discriminate.
Qed.

(** C2, amended: [deleteTodo] removes the records with the given id and
    leaves the edit session as it is.  The Delete button is rendered only
    while no session is open, so in every state the interface reaches from
    the initial one, the id of an open session is the id of a record in
    the list. *)
Theorem session_guarded_by_render (st : AppState) (i : Z) (u : UI) :
  ui_reachable u →
  (todos (deleteTodo i st) = filter (λ todo, id todo ≠ i) (todos st) ∧
   editingId (deleteTodo i st) = editingId st ∧
   editText (deleteTodo i st) = editText st) ∧
  (∀ j, editingId (app u) = Some j → ∃ todo, todo ∈ todos (app u) ∧ id todo = j).
Proof.
  intros Hu. split; [done|].
  intros j Hj. destruct (ui_invariant u Hu) as [_ Hsession].
  specialize (Hsession j Hj).
  apply list_elem_of_fmap in Hsession as (todo & -> & Hin). by exists todo.
Qed.

Lemma session_guarded_by_render_witness :
  ∃ todo,
    todo ∈ [ {| id := 5; text := js "x"; completed := false; createdAt := 6 |} ] ∧
    id todo = 5.
Proof.
  exact (proj2 (session_guarded_by_render initial 0 _ ui_editing_reachable) 5 eq_refl).
Defined.

(** ** The texts of the records *)

(** C3, as stated, fails: the handlers accept any string, so a record
    with the empty text is one call away from the initial state. *)
Lemma handlers_store_blank_text :
  let st := run [CallAdd 1 1 (js "  ")] initial in
  reachable st ∧
  todos st = [ {| id := 1; text := []; completed := false; createdAt := 1 |} ] ∧
  ¬ Forall (λ todo, text_trimmed todo ∧ text_within 200 todo) (todos st).
Proof.
  intros st. split; [by exists [CallAdd 1 1 (js "  ")]|]. split; [reflexivity|].
  intros Hall. apply Forall_cons_1 in Hall as [[[Hne _] _] _].
  by apply Hne.
Qed.

(** The bound of 200 units is kept by the add form only: [EditTodoForm]
    puts no [maxLength] on its input, and a longer draft is saved. *)
Lemma edit_form_has_no_bound :
  let long := replicate 201 97%N in
  ui_reachable
    {| app := {| todos := [ {| id := 5; text := long;
                               completed := false; createdAt := 6 |} ];
                 editingId := None; editText := [] |};
       form := {| TodoForm.input := [] |} |} ∧
  ¬ text_within 200 {| id := 5; text := long; completed := false; createdAt := 6 |}.
Proof.
  intros long. split.
  - eapply rtc_trans; [apply ui_editing_reachable|].
    eapply rtc_l; [apply (ui_edit_change long); by eexists|].
    eapply rtc_l; [apply ui_edit_submit; by eexists|].
    vm_compute. apply rtc_refl.
  - unfold text_within. vm_compute. lia.
Qed.

(** C3, amended: in every state the interface reaches from the initial
    one, where a text comes in through [TodoForm] or [EditTodoForm], the
    text of every record is not empty after trimming and is equal to its
    own trim. *)
Theorem ui_texts_trimmed (u : UI) :
  ui_reachable u →
  ∀ todo, todo ∈ todos (app u) →
    trim (text todo) ≠ [] ∧ trim (text todo) = text todo.
Proof.
  intros Hu todo Hin. destruct (ui_invariant u Hu) as [Htexts _].
  by eapply Forall_forall in Htexts.
Qed.

Lemma ui_texts_trimmed_witness :
  trim (js "x") ≠ [] ∧ trim (js "x") = js "x".
Proof.
  refine (ui_texts_trimmed _ ui_editing_reachable
            {| id := 5; text := js "x"; completed := false; createdAt := 6 |} _).
  left.
Defined.

(** ** The ids of the records *)

(** C4, as stated, fails: the id is the clock value and nothing else, so
    two adds within one millisecond make two records with one id. *)
Lemma same_millisecond_same_id :
  let st := run [CallAdd 1000 1000 (js "a"); CallAdd 1000 1000 (js "b")] initial in
  reachable st ∧ ids st = [1000; 1000] ∧ ¬ NoDup (ids st).
Proof.
  intros st. split; [by eexists|]. split; [reflexivity|].
  intros Hdup. apply NoDup_cons_1_1 in Hdup. apply Hdup. left.
Qed.

(** Along a run whose clock reads increase, the ids stay distinct and
    below the reads still to come. *)
Lemma run_ids_distinct cs :
  ∀ st,
    NoDup (ids st) →
    (∀ i c, i ∈ ids st → c ∈ clock_reads cs → i < c) →
    StronglySorted Z.lt (clock_reads cs) →
    NoDup (ids (run cs st)).
Proof.
  induction cs as [|c cs IH]; intros st Hdup Hbelow Hsorted; [done|].
  pose proof (ids_call_sublist c st) as Hsub.
  destruct c as [now created txt| | | | | |]; simpl in *.
  1: {
    clear Hsub.
    apply StronglySorted_cons in Hsorted as [Hnow Hsorted].
    apply IH; [| |done].
    - rewrite ids_addTodo. apply NoDup_app. split; [done|]. split.
      + intros i Hi Hin. apply list_elem_of_singleton in Hin as ->.
        assert (now < now) by (apply Hbelow; [done|left]). lia.
      + apply NoDup_singleton.
    - intros i c. rewrite ids_addTodo.
      intros [Hi| ->%list_elem_of_singleton]%elem_of_app Hc.
      + apply Hbelow; [done|by right].
      + by eapply Forall_forall in Hnow. }
  all: assert (Hsub' := Hsub ltac:(discriminate)); clear Hsub.
  all: apply IH; [by eapply sublist_NoDup| |done].
  all: intros j c Hj Hc; apply Hbelow; [|done].
  all: by eapply elem_of_sublist.
Qed.

(** C4, amended: the ids of the records are pairwise distinct in every
    state the handlers reach from the initial one along a run in which the
    values [Date.now()] returns at the adds are strictly increasing.
    Nothing is promised when the clock repeats a value. *)
Theorem ids_distinct_when_clock_increases (cs : list Call) :
  StronglySorted Z.lt (clock_reads cs) → NoDup (ids (run cs initial)).
Proof.
  intros Hsorted. apply run_ids_distinct; [constructor| |done].
  intros i c Hi. by apply elem_of_nil in Hi.
Qed.

Lemma ids_distinct_when_clock_increases_witness :
  NoDup (ids (run [CallAdd 1000 1000 (js "a"); CallAdd 1001 1001 (js "b");
                   CallDelete 1000; CallAdd 1002 1002 (js "c")] initial)).
Proof.
  apply ids_distinct_when_clock_increases. simpl.
  repeat (constructor; try lia).
Defined.

(** * Further properties of the handlers *)

(** ** Toggling and deleting *)

Lemma toggled_toggled i todo : toggled i (toggled i todo) = todo.
Proof.
  destruct todo as [j t b c]. unfold toggled; simpl.
  destruct (decide (j = i)) as [Heq|Hne]; simpl.
  - rewrite decide_True by done. by rewrite negb_involutive.
  - by rewrite decide_False.
Qed.

Lemma toggled_absent i (ts : list Todo) :
  (∀ todo, todo ∈ ts → id todo ≠ i) → toggled i <$> ts = ts.
Proof.
  induction ts as [|t ts IH]; intros Habs; [done|].
  rewrite fmap_cons, IH.
  - unfold toggled. rewrite decide_False; [done|]. apply Habs. left.
  - intros todo Hin. apply Habs. by right.
Qed.

Lemma filter_id_absent i (ts : list Todo) :
  (∀ todo, todo ∈ ts → id todo ≠ i) → filter (λ todo, id todo ≠ i) ts = ts.
Proof.
  induction ts as [|t ts IH]; intros Habs; [done|].
  rewrite filter_cons_True by (apply Habs; left).
  rewrite IH; [done|]. intros todo Hin. apply Habs. by right.
Qed.

Lemma not_in_ids i st : i ∉ ids st ↔ ∀ todo, todo ∈ todos st → id todo ≠ i.
Proof.
  unfold ids. split.
  - intros Hnot todo Hin <-. apply Hnot. by apply list_elem_of_fmap_2.
  - intros Habs (todo & -> & Hin)%list_elem_of_fmap. by apply (Habs todo).
Qed.

(** X1: toggling the same id twice gives back the state there was, for
    every id and state, also when several records carry the id. *)
Theorem toggleTodo_twice (i : Z) (st : AppState) :
  toggleTodo i (toggleTodo i st) = st.
Proof.
  destruct st as [ts e d]. unfold toggleTodo, setTodos; simpl. f_equal.
  change (toggled i <$> (toggled i <$> ts) = ts).
  rewrite <- list_fmap_compose.
  etrans; [|apply list_fmap_id]. apply list_fmap_ext.
  intros k todo _. apply toggled_toggled.
Qed.


(** X3: deleting an id that no record carries changes nothing. *)
Theorem deleteTodo_absent (i : Z) (st : AppState) :
  i ∉ ids st → deleteTodo i st = st.
Proof.
  intros Hnot. destruct st as [ts e d]. unfold deleteTodo, setTodos; simpl.
  f_equal. apply filter_id_absent. by apply (not_in_ids i (mkAppState ts e d)).
Qed.

Lemma deleteTodo_absent_witness :
  let st := {| todos := [ {| id := 1; text := js "a"; completed := false; createdAt := 1 |} ];
               editingId := None; editText := [] |} in
  deleteTodo 2 st = st.
Proof.
  intros st. apply deleteTodo_absent.
  intros Hin. apply list_elem_of_singleton in Hin. discriminate.
Defined.

(** X6: a second delete of the same id is a no-op: deleting twice is
    deleting once. *)
Theorem deleteTodo_idemp (i : Z) (st : AppState) :
  deleteTodo i (deleteTodo i st) = deleteTodo i st.
Proof.
  destruct st as [ts e d]. unfold deleteTodo, setTodos; simpl. f_equal.
  apply filter_id_absent. by intros todo [Hne _]%list_elem_of_filter.
Qed.

Lemma toggled_filter_commute i j (ts : list Todo) :
  filter (λ todo, id todo ≠ j) (toggled i <$> ts)
  = toggled i <$> filter (λ todo, id todo ≠ j) ts.
Proof.
  assert (Hid : ∀ todo, id (toggled i todo) = id todo).
  { intros todo. unfold toggled. by case_decide. }
  induction ts as [|t ts IH]; [done|].
  rewrite fmap_cons. destruct (decide (id t = j)) as [Heq|Hne].
  - rewrite !filter_cons_False; [done| |]; rewrite ?Hid; by intros Hn.
  - rewrite !filter_cons_True; rewrite ?Hid; try done.
    by rewrite fmap_cons, IH.
Qed.

(** X4: a toggle and a delete, of the same id or of two ids, give the same
    state in either order; on the same id both orders are the delete alone. *)
Theorem toggle_delete_commute (i j : Z) (st : AppState) :
  deleteTodo j (toggleTodo i st) = toggleTodo i (deleteTodo j st) ∧
  toggleTodo i (deleteTodo i st) = deleteTodo i st ∧
  deleteTodo i (toggleTodo i st) = deleteTodo i st.
Proof.
  assert (Hcomm : ∀ k, deleteTodo k (toggleTodo i st) = toggleTodo i (deleteTodo k st)).
  { intros k. destruct st as [ts e d]. unfold deleteTodo, toggleTodo, setTodos; simpl.
    f_equal. apply (toggled_filter_commute i k ts). }
  assert (Habs : toggleTodo i (deleteTodo i st) = deleteTodo i st).
  { destruct st as [ts e d]. unfold deleteTodo, toggleTodo, setTodos; simpl.
    f_equal. apply (toggled_absent i).
    by intros todo [Hne _]%list_elem_of_filter. }
  split; [apply Hcomm|]. split; [exact Habs|]. by rewrite Hcomm.
Qed.

(** X5: an add followed by a delete of the id it gave is a round trip
    when the id was not in use: the state is the one before the add. *)
Theorem add_then_delete now created (s : jsstring) (st : AppState) :
  now ∉ ids st → deleteTodo now (addTodo now created s st) = st.
Proof.
  intros Hnot. destruct st as [ts e d].
  unfold deleteTodo, addTodo, setTodos; simpl. f_equal.
  rewrite filter_app, filter_cons_False, filter_nil by (simpl; by intros Hn).
  rewrite app_nil_r. apply filter_id_absent.
  by apply (not_in_ids now (mkAppState ts e d)).
Qed.

Lemma add_then_delete_witness :
  let st := {| todos := [ {| id := 1; text := js "a"; completed := true; createdAt := 1 |} ];
               editingId := None; editText := [] |} in
  deleteTodo 2 (addTodo 2 3 (js " b ") st) = st.
Proof.
  intros st. apply add_then_delete.
  intros Hin. apply list_elem_of_singleton in Hin. discriminate.
Defined.

(** ** The figures in the footer *)

Lemma split_at_unique (ts : list Todo) t :
  NoDup (id <$> ts) → t ∈ ts →
  ∃ l1 l2, ts = l1 ++ t :: l2 ∧
    (∀ todo, todo ∈ l1 → id todo ≠ id t) ∧ (∀ todo, todo ∈ l2 → id todo ≠ id t).
Proof.
  intros Hdup (l1 & l2 & ->)%list_elem_of_split.
  exists l1, l2. split; [done|].
  rewrite fmap_app, fmap_cons in Hdup.
  apply NoDup_app in Hdup as (_ & Hcross & Htail).
  apply NoDup_cons in Htail as [Hnot _]. split.
  - intros todo Hin Heq. apply (Hcross (id todo)).
    + by apply list_elem_of_fmap_2.
    + rewrite Heq. left.
  - intros todo Hin Heq. apply Hnot. rewrite <- Heq. by apply list_elem_of_fmap_2.
Qed.

Lemma length_filter_completed_cons t (ts : list Todo) :
  length (filter (λ todo, completed todo) (t :: ts))
  = ((if completed t then 1 else 0) + length (filter (λ todo, completed todo) ts))%nat.
Proof.
  destruct (completed t) eqn:Hc.
  - rewrite filter_cons_True; [done|]. by rewrite Hc.
  - rewrite filter_cons_False; [done|]. rewrite Hc. simpl. tauto.
Qed.

Lemma toggleTodo_todos i st : todos (toggleTodo i st) = toggled i <$> todos st.
Proof. reflexivity. Qed.

(** X7: the three figures always add up: completed plus remaining is the
    total, none is negative, and remaining counts the records that are
    not completed. *)
Theorem stats_add_up (st : AppState) :
  completedTodos st + remainingTodos st = totalTodos st ∧
  0 ≤ completedTodos st ≤ totalTodos st ∧
  0 ≤ remainingTodos st ∧
  remainingTodos st
    = Z.of_nat (length (filter (λ todo, ¬ completed todo) (todos st))).
Proof.
  unfold remainingTodos, completedTodos, totalTodos.
  pose proof (length_filter (λ todo : Todo, completed todo) (todos st)) as Hle.
  pose proof (filter_app_complement (λ todo : Todo, completed todo) (todos st)) as Hperm.
  apply Permutation_length in Hperm. rewrite length_app in Hperm.
  repeat split; lia.
Qed.

(** X8: an add raises the total and the remaining figure by one and
    leaves the completed figure as it is. *)
Theorem stats_after_add now created (s : jsstring) (st : AppState) :
  totalTodos (addTodo now created s st) = totalTodos st + 1 ∧
  completedTodos (addTodo now created s st) = completedTodos st ∧
  remainingTodos (addTodo now created s st) = remainingTodos st + 1.
Proof.
  unfold remainingTodos, completedTodos, totalTodos, addTodo; simpl.
  rewrite filter_app, !length_app; simpl.
  repeat split; lia.
Qed.

(** X9: with distinct ids, toggling a record of the list keeps the total
    and moves one unit between completed and remaining, in the direction
    the record's flag gives. *)
Theorem stats_after_toggle (st : AppState) (t : Todo) :
  NoDup (ids st) → t ∈ todos st →
  totalTodos (toggleTodo (id t) st) = totalTodos st ∧
  completedTodos (toggleTodo (id t) st)
    = completedTodos st + (if completed t then -1 else 1) ∧
  remainingTodos (toggleTodo (id t) st)
    = remainingTodos st - (if completed t then -1 else 1).
Proof.
  intros Hdup Hin.
  assert (Htotal : totalTodos (toggleTodo (id t) st) = totalTodos st).
  { unfold totalTodos, toggleTodo; simpl. by rewrite length_fmap. }
  assert (Hdone : completedTodos (toggleTodo (id t) st)
                  = completedTodos st + (if completed t then -1 else 1)).
  { destruct (split_at_unique (todos st) t Hdup Hin) as (l1 & l2 & Hts & H1 & H2).
    unfold completedTodos. rewrite toggleTodo_todos, Hts, fmap_app, fmap_cons.
    rewrite (toggled_absent _ l1 H1), (toggled_absent _ l2 H2).
    rewrite !filter_app, !length_app, !length_filter_completed_cons.
    unfold toggled. rewrite decide_True by done. simpl.
    destruct (completed t); simpl; lia. }
  unfold remainingTodos. rewrite Htotal, Hdone. repeat split; lia.
Qed.

Lemma stats_after_toggle_witness :
  let t := {| id := 2; text := js "b"; completed := false; createdAt := 2 |} in
  let st := {| todos := [ {| id := 1; text := js "a"; completed := true; createdAt := 1 |}; t ];
               editingId := None; editText := [] |} in
  completedTodos (toggleTodo 2 st) = completedTodos st + 1.
Proof.
  intros t st.
  refine (proj1 (proj2 (stats_after_toggle st t _ _))).
  - apply (bool_decide_unpack _). vm_compute. exact I.
  - right. left.
Defined.

(** X10: with distinct ids, deleting a record of the list lowers the
    total by one, and the completed figure by one exactly when the record
    was completed. *)
Theorem stats_after_delete (st : AppState) (t : Todo) :
  NoDup (ids st) → t ∈ todos st →
  totalTodos (deleteTodo (id t) st) = totalTodos st - 1 ∧
  completedTodos (deleteTodo (id t) st)
    = completedTodos st - (if completed t then 1 else 0).
Proof.
  intros Hdup Hin.
  destruct (split_at_unique (todos st) t Hdup Hin) as (l1 & l2 & Hts & H1 & H2).
  unfold totalTodos, completedTodos, deleteTodo; simpl. rewrite Hts.
  rewrite (filter_app _ l1), (filter_cons_False _ t) by (by intros Hn).
  rewrite (filter_id_absent _ l1 H1), (filter_id_absent _ l2 H2).
  rewrite !filter_app, !length_app, !length_filter_completed_cons. simpl.
  destruct (completed t); split; lia.
Qed.

Lemma stats_after_delete_witness :
  let t := {| id := 1; text := js "a"; completed := true; createdAt := 1 |} in
  let st := {| todos := [ t; {| id := 2; text := js "b"; completed := false; createdAt := 2 |} ];
               editingId := None; editText := [] |} in
  totalTodos (deleteTodo 1 st) = 1 ∧ completedTodos (deleteTodo 1 st) = 0.
Proof.
  intros t st.
  refine (stats_after_delete st t _ _).
  - apply (bool_decide_unpack _). vm_compute. exact I.
  - left.
Defined.

(** ** Editing *)

Lemma saveEdit_closed st : editingId st = None → saveEdit st = st.
Proof. intros Hnone. unfold saveEdit. by rewrite Hnone. Qed.

(** X11: a second [saveEdit] in a row changes nothing: after the first
    one the draft was blank and is still, or the session is closed. *)
Theorem saveEdit_idemp (st : AppState) : saveEdit (saveEdit st) = saveEdit st.
Proof.
  destruct (saveEdit_cases st) as [Hsame|(i & _ & _ & Hsaved)].
  - by rewrite !Hsame.
  - rewrite Hsaved. by apply saveEdit_closed.
Qed.

Lemma retexted_same (t : Todo) : retexted (id t) (text t) t = t.
Proof. destruct t as [j s b c]. unfold retexted; simpl. by rewrite decide_True. Qed.

(** X12: with distinct ids, pressing Edit on a record whose text is
    trimmed and not blank and saving the draft as it is leaves the list
    of records exactly as it was and closes the session. *)
Theorem edit_unchanged_keeps_list (st : AppState) (t : Todo) :
  NoDup (ids st) → t ∈ todos st → text_trimmed t →
  todos (saveEdit (TodoItem.handleEditClick t startEditing st)) = todos st ∧
  editingId (saveEdit (TodoItem.handleEditClick t startEditing st)) = None.
Proof.
  intros Hdup Hin [Hne Htrim].
  unfold TodoItem.handleEditClick.
  rewrite (saveEdit_saves _ (id t)); [|done|done]. simpl. split; [|done].
  rewrite Htrim.
  destruct (split_at_unique (todos st) t Hdup Hin) as (l1 & l2 & -> & H1 & H2).
  rewrite fmap_app, fmap_cons.
  by rewrite (retexted_absent _ _ l1 H1), (retexted_absent _ _ l2 H2), retexted_same.
Qed.

Lemma edit_unchanged_keeps_list_witness :
  let t := {| id := 2; text := js "b c"; completed := true; createdAt := 2 |} in
  let st := {| todos := [ {| id := 1; text := js "a"; completed := false; createdAt := 1 |}; t ];
               editingId := None; editText := [] |} in
  todos (saveEdit (TodoItem.handleEditClick t startEditing st)) = todos st.
Proof.
  intros t st.
  refine (proj1 (edit_unchanged_keeps_list st t _ _ _)).
  - apply (bool_decide_unpack _). vm_compute. exact I.
  - right. left.
  - split; [vm_compute; discriminate|reflexivity].
Defined.

(** A call the interface can make keeps the draft empty while no session
    is open. *)
Lemma draft_empty_call c st :
  ui_enabled c st →
  (editingId st = None → editText st = []) →
  editingId (call c st) = None → editText (call c st) = [].
Proof.
  intros Hen Hinv. destruct c; simpl in *; try done.
  - destruct Hen as [i Hi]. congruence.
  - destruct (saveEdit_cases st) as [->|(i & _ & _ & ->)]; done.
Qed.

Lemma ui_draft_empty u :
  ui_reachable u → editingId (app u) = None → editText (app u) = [].
Proof.
  unfold ui_reachable. revert u.
  apply (rtc_ind_r (λ u, editingId (app u) = None → editText (app u) = []));
    [done|].
  intros u u' _ Hstep Hinv.
  destruct (ui_step_call u u' Hstep) as [->|(c & Hen & ->)]; [done|].
  by apply draft_empty_call.
Qed.

(** X13: in every state the interface reaches, the draft is empty while
    the list is shown; so pressing Edit on a row, typing anything and
    cancelling, by the button or by Escape, gives back the very state
    there was before. *)
Theorem edit_then_cancel (u : UI) :
  ui_reachable u → editingId (app u) = None →
  editText (app u) = [] ∧
  ∀ todo value,
    cancelEdit (setEditText value (TodoItem.handleEditClick todo startEditing (app u)))
      = app u ∧
    EditTodoForm.handleKeyDown "Escape" cancelEdit
      (setEditText value (TodoItem.handleEditClick todo startEditing (app u)))
      = app u.
Proof.
  intros Hu Hnone. pose proof (ui_draft_empty u Hu Hnone) as Hdraft.
  split; [done|]. intros todo value.
  destruct (app u) as [ts e d]; simpl in *. subst e d. by split.
Qed.

Lemma ui_listed_reachable :
  ui_reachable
    {| app := {| todos := [ {| id := 5; text := js "x";
                               completed := false; createdAt := 6 |} ];
                 editingId := None; editText := [] |};
       form := {| TodoForm.input := [] |} |}.
Proof.
  unfold ui_reachable.
  eapply rtc_l; [apply (ui_type (js " x ")); vm_compute; lia|].
  eapply rtc_l; [apply (ui_submit 5 6)|].
  apply rtc_refl.
Qed.

Lemma edit_then_cancel_witness :
  let st := {| todos := [ {| id := 5; text := js "x"; completed := false; createdAt := 6 |} ];
               editingId := None; editText := [] |} in
  cancelEdit (setEditText (js "draft") (startEditing 5 (js "x") st)) = st.
Proof.
  intros st.
  exact (proj1 (proj2 (edit_then_cancel _ ui_listed_reachable eq_refl)
                  {| id := 5; text := js "x"; completed := false; createdAt := 6 |}
                  (js "draft"))).
Defined.

(** X14: while a session is open, the Save button is disabled exactly
    when submitting the edit form would change nothing. *)
Theorem save_disabled_iff_noop (st : AppState) :
  is_Some (editingId st) →
  (EditTodoForm.disabled (editText st) = true
   ↔ EditTodoForm.handleSubmit saveEdit st = st).
Proof.
  intros [i Hi]. unfold EditTodoForm.disabled, EditTodoForm.handleSubmit.
  destruct (decide (trim (editText st) = [])) as [Hs|Hs].
  - rewrite Hs; simpl. split; [|done]. intros _.
    unfold saveEdit. by rewrite Hi, Hs.
  - pose proof (proj2 (truthy_cons _) Hs) as Ht. rewrite Ht; simpl.
    split; [done|]. rewrite (saveEdit_saves st i Hi Hs).
    intros Heq. apply (f_equal editingId) in Heq. simpl in Heq. congruence.
Qed.

Lemma save_disabled_iff_noop_witness :
  let st := {| todos := []; editingId := Some 3; editText := js "  " |} in
  EditTodoForm.handleSubmit saveEdit st = st.
Proof.
  intros st. apply (save_disabled_iff_noop st); [by exists 3|reflexivity].
Defined.

(** ** The add form *)

Lemma trimStart_nil_iff (s : jsstring) :
  trimStart s = [] ↔ Forall (λ c, isWhiteSpace c = true) s.
Proof.
  induction s as [|c r IH]; simpl; [by split; [constructor|]|].
  destruct (isWhiteSpace c) eqn:Hc.
  - rewrite IH. split; [by constructor|]. by intros [_ Hr]%Forall_cons_1.
  - split; [done|]. intros [Hw _]%Forall_cons_1. congruence.
Qed.

Lemma trim_nil_iff (s : jsstring) :
  trim s = [] ↔ Forall (λ c, isWhiteSpace c = true) s.
Proof.
  rewrite <- trimStart_nil_iff. unfold trim.
  destruct (trimStart_head s) as [->|(c & r & -> & Hc)]; [done|].
  by rewrite (trimEnd_keep c r Hc).
Qed.

(** X15: the add form ignores exactly the inputs made of white space
    only.  For such an input, and for no other, the Add button is disabled
    and a submit leaves the form and the application as they are. *)
Theorem add_form_ignores_blank now created (f : TodoForm.State) (st : AppState) :
  (TodoForm.disabled f = true ↔ Forall (λ c, isWhiteSpace c = true) (TodoForm.input f)) ∧
  (TodoForm.handleSubmit (addTodo now created) f st = (f, st)
   ↔ Forall (λ c, isWhiteSpace c = true) (TodoForm.input f)).
Proof.
  rewrite <- !trim_nil_iff. unfold TodoForm.disabled.
  destruct (decide (trim (TodoForm.input f) = [])) as [Hs|Hs].
  - split; [by rewrite Hs|]. split; [done|]. intros _.
    unfold TodoForm.handleSubmit. by rewrite Hs.
  - pose proof (proj2 (truthy_cons _) Hs) as Ht. split.
    + rewrite Ht. simpl. by split.
    + split; [|done]. rewrite (submit_adds now created f st Hs).
      intros Heq. apply (f_equal (λ p, length (todos p.2))) in Heq.
      simpl in Heq. rewrite length_app in Heq. simpl in Heq. lia.
Qed.

Lemma add_form_ignores_blank_witness :
  let f := {| TodoForm.input := [9; 32; 160; 0x3000]%N |} in
  TodoForm.handleSubmit (addTodo 1 2) f initial = (f, initial).
Proof.
  intros f. apply (proj2 (add_form_ignores_blank 1 2 f initial)).
  repeat constructor.
Defined.

(** X16: a submit right after a submit, with nothing typed in between,
    adds nothing: the first one either added a record and emptied the
    input or found the input blank and left it so. *)
Theorem submit_twice n1 c1 n2 c2 (u : UI) :
  submit n2 c2 (submit n1 c1 u) = submit n1 c1 u.
Proof.
  destruct u as [st f]. unfold submit, TodoForm.handleSubmit; simpl.
  destruct (truthy (trim (TodoForm.input f))) eqn:Ht; simpl.
  - done.
  - by rewrite Ht.
Qed.

(** X17: the form listed in the README and the component agree on what
    reaches the application and on the input left in the field, for every
    handler passed in; the README's form sets its error exactly when the
    input was blank. *)
Theorem readme_form_agrees onAddTodo (value : jsstring) (e : option string)
    (st : AppState) :
  let r := ReadmeTodoForm.handleSubmit onAddTodo
             {| ReadmeTodoForm.input := value; ReadmeTodoForm.error := e |} st in
  let c := TodoForm.handleSubmit onAddTodo {| TodoForm.input := value |} st in
  r.2 = c.2 ∧
  ReadmeTodoForm.input r.1 = TodoForm.input c.1 ∧
  (ReadmeTodoForm.error r.1 = None ↔ trim value ≠ []).
Proof.
  unfold ReadmeTodoForm.handleSubmit, TodoForm.handleSubmit; simpl.
  destruct (trim value) eqn:Hs; simpl.
  - split; [done|]. split; [done|]. by split.
  - split; [done|]. split; [done|]. by split.
Qed.

(** ** The earlier [App] *)


(** ** What no handler does *)

Lemma origins_retexted i s (ts : list Todo) :
  (λ todo, (id todo, createdAt todo)) <$> (retexted i s <$> ts)
  = (λ todo, (id todo, createdAt todo)) <$> ts.
Proof.
  rewrite <- list_fmap_compose. apply list_fmap_ext.
  intros k todo _; simpl. unfold retexted. by case_decide.
Qed.

Lemma origins_saveEdit st : origins (saveEdit st) = origins st.
Proof.
  destruct (saveEdit_cases st) as [->|(i & _ & _ & ->)]; [done|].
  apply origins_retexted.
Qed.

Lemma origins_toggleTodo i st : origins (toggleTodo i st) = origins st.
Proof.
  unfold origins. rewrite toggleTodo_todos, <- list_fmap_compose.
  apply list_fmap_ext. intros k todo _; simpl. unfold toggled. by case_decide.
Qed.

(** X19: no handler changes the id or the creation time of a record or
    reorders the list: after an add the ids and times are those before
    with the new pair at the end, and after any other call they are those
    before with some left out, in the same order. *)
Theorem origins_kept (c : Call) (st : AppState) :
  match c with
  | CallAdd now created _ => origins (call c st) = origins st ++ [(now, created)]
  | _ => origins (call c st) `sublist_of` origins st
  end.
Proof.
  destruct c; simpl; try done.
  - unfold origins, addTodo; simpl. by rewrite fmap_app.
  - by rewrite origins_toggleTodo.
  - unfold origins, deleteTodo; simpl. apply fmap_sublist, sublist_filter.
  - by rewrite origins_saveEdit.
Qed.

(** X20: while the edit form is shown, no event removes, toggles or
    reorders a record: after a step of the interface out of an editing
    state, the ids, times and flags before are a prefix of those after. *)
Theorem editing_keeps_records (u u' : UI) :
  ui_step u u' → is_Some (editingId (app u)) →
  (origins (app u) `prefix_of` origins (app u')) ∧
  ((completed <$> todos (app u)) `prefix_of` (completed <$> todos (app u'))).
Proof.
  intros Hstep [e He].
  destruct (ui_step_call u u' Hstep) as [->|(c & Hen & ->)]; [done|].
  destruct c; simpl in *; try (destruct Hen; congruence); try done.
  - unfold origins, addTodo; simpl. rewrite !fmap_app.
    split; by apply prefix_app_r.
  - rewrite origins_saveEdit. split; [done|].
    destruct (saveEdit_cases (app u)) as [->|(i & _ & _ & ->)]; [done|]. simpl.
    rewrite <- list_fmap_compose.
    erewrite list_fmap_ext; [done|].
    intros k todo _; simpl. unfold retexted. by case_decide.
Qed.

Lemma editing_keeps_records_witness :
  let u := {| app := {| todos := [ {| id := 5; text := js "x";
                                      completed := false; createdAt := 6 |} ];
                        editingId := Some 5; editText := js "x" |};
              form := {| TodoForm.input := js "y" |} |} in
  origins (app u) `prefix_of` origins (app (submit 7 8 u)).
Proof.
  intros u.
  refine (proj1 (editing_keeps_records u (submit 7 8 u) (ui_submit 7 8 u) _)).
  by exists 5.
Defined.
